(** * ElGamal signature toolkit: a shallow embedding of [elgamal.js]

    The numeric engine of the repository (modular exponentiation, signature
    verification, baby-step/giant-step discrete logarithm, negative modulo,
    brute-force modular inverse, subtractive gcd and nonce recovery) is
    transcribed function by function, and the statements of the specification
    are settled against it.

    Conventions of the embedding.
    - A JavaScript number holding an integer is a [Z].  The model is exact as
      long as every intermediate value is an integer below 2^53; [NaN] and
      the infinities (division or remainder by zero) are outside it, and the
      theorems carry the hypotheses that keep divisors away from zero.
    - [a % b] is the truncated remainder [Z.rem a b]: its sign is the sign of
      the dividend [a].
    - [Math.floor (a / b)] is the floor division [a / b] of [Z].
    - [Math.floor (Math.sqrt p + 1)] is [Z.sqrt p + 1], for [p >= 0].
    - The array [value] of [discreteLogarithm] is created with holes only and
      is written and read at arbitrary integer keys; it is a finite map from
      keys to stored indices, and reading a hole gives no entry.
    - A [for] loop over a range walks the list of its index values.  The two
      loops whose trip count is not bounded by the source ([gcd] and
      [negativeModulo]) take a fuel argument and answer [None] when it runs
      out; a call diverges when it answers [None] for every fuel, and a
      result, once reached, is the same for every larger fuel.  [calculateK]
      calls both and hands its fuel on to them. *)

From Stdlib Require Import ZArith Zdivisibility Zcong Zquot Lia.
From Stdlib Require ZmodInv.
From stdpp Require Import base option list list_numbers gmap pretty.

Local Open Scope Z_scope.

(** ** Fast modular exponentiation *)

(** The body of [while (exponent > 0)].  A positive exponent is its list of
    bits, least significant first: [exponent % 2] is the head bit and
    [Math.floor (exponent / 2)] the tail, so the loop is a recursion on the
    binary representation ([fme_while_unfold] below states the loop equation
    in the source's own terms). *)
Fixpoint fme_loop (exponent : positive) (result x modulo : Z) : Z :=
  match exponent with
  | xH => Z.rem (result * x) modulo
  | xO exponent' => fme_loop exponent' result (Z.rem (x * x) modulo) modulo
  | xI exponent' =>
      fme_loop exponent' (Z.rem (result * x) modulo) (Z.rem (x * x) modulo) modulo
  end.

Definition fme_while (exponent result x modulo : Z) : Z :=
  match exponent with
  | Zpos e => fme_loop e result x modulo
  | _ => result
  end.

Definition fastModularExponentiation (base exponent modulo : Z) : Z :=
  let base := Z.rem base modulo in
  let result := 1 in
  let x := base in
  fme_while exponent result x modulo.

(** ** Signature verification *)

Definition verify (alpha beta modulo m signature1 signature2 : Z) : bool :=
  let v1 := fastModularExponentiation alpha m modulo in
  let v2 :=
    fastModularExponentiation
      (fastModularExponentiation beta signature1 modulo *
       fastModularExponentiation signature1 signature2 modulo)
      1 modulo in
  v1 =? v2.

(** ** Discrete logarithm (baby-step/giant-step) *)

(** [for (let i = n; i >= 1; i--)]: the index values, in the order visited. *)
Definition giantIndices (n : Z) : list Z := reverse (seqZ 1 n).

(** [value[fastModularExponentiation(alpha, i * n, modulo)] = i] *)
Definition giantWrite (alpha n modulo : Z) (value : gmap Z Z) (i : Z) : gmap Z Z :=
  <[fastModularExponentiation alpha (i * n) modulo := i]> value.

Definition giantSteps (alpha n modulo : Z) : gmap Z Z :=
  foldl (giantWrite alpha n modulo) ∅ (giantIndices n).

(** The second loop, [for (let i = 0; i < n; i++)], over the index values
    still to visit; [-1] is the value returned after the loop. *)
Fixpoint babySteps (value : gmap Z Z) (alpha beta modulo n : Z) (indices : list Z) : Z :=
  match indices with
  | [] => -1
  | i :: rest =>
      let curr := Z.rem (fastModularExponentiation alpha i modulo * beta) modulo in
      match value !! curr with
      | Some v =>
          if v >? 0 then
            let ans := v * n - i in
            if ans <? modulo then ans
            else babySteps value alpha beta modulo n rest
          else babySteps value alpha beta modulo n rest
      | None => babySteps value alpha beta modulo n rest
      end
  end.

Definition discreteLogarithm (alpha beta modulo : Z) : Z :=
  let n := Z.sqrt modulo + 1 in
  let value := giantSteps alpha n modulo in
  babySteps value alpha beta modulo n (seqZ 0 n).

(** ** Negative modulo *)

(** [for (; i < modulo; i--) { if (modulo * i < negativeNumber) break }]:
    the value of [i] when the loop is left. *)
Fixpoint negativeModulo_loop (fuel : nat) (negativeNumber modulo i : Z) : option Z :=
  match fuel with
  | O => None
  | S fuel' =>
      if i <? modulo then
        if modulo * i <? negativeNumber then Some i
        else negativeModulo_loop fuel' negativeNumber modulo (i - 1)
      else Some i
  end.

Definition negativeModulo (fuel : nat) (negativeNumber modulo : Z) : option Z :=
  i ← negativeModulo_loop fuel negativeNumber modulo (-1);
  Some (-1 * (modulo * i) + negativeNumber).

(** ** Inverse modulo (linear search) *)

Fixpoint inverseModulo_loop (a modulo : Z) (indices : list Z) : Z :=
  match indices with
  | [] => 1
  | i :: rest =>
      if Z.rem (a * i) modulo =? 1 then i
      else inverseModulo_loop a modulo rest
  end.

Definition inverseModulo (a modulo : Z) : Z :=
  let a := Z.rem a modulo in
  inverseModulo_loop a modulo (seqZ 0 modulo).

(** ** Greatest common divisor (repeated subtraction) *)

Fixpoint gcd (fuel : nat) (number1 number2 : Z) : option Z :=
  match fuel with
  | O => None
  | S fuel' =>
      if negb (number1 =? number2) then
        if number1 >? number2 then gcd fuel' (number1 - number2) number2
        else gcd fuel' number1 (number2 - number1)
      else Some number1
  end.

(** ** Nonce recovery *)

(** The loop [for (let i = 1; i <= c; i++)] of the branch [c !== 1]; [k] is
    the variable assigned in the body and returned after the loop. *)
Fixpoint calculateK_loop (alpha modulo signature1 kt modulo2 : Z)
    (indices : list Z) (k : Z) : Z :=
  match indices with
  | [] => k
  | i :: rest =>
      let k := kt + i * modulo2 in
      if fastModularExponentiation alpha k modulo =? signature1 then k
      else calculateK_loop alpha modulo signature1 kt modulo2 rest k
  end.

Definition calculateK (fuel : nat)
    (alpha beta modulo m signature1 signature2 secretKey : Z) : option Z :=
  let k := 0 in
  aux ←
    (if m - secretKey * signature1 <? 0
     then negativeModulo fuel (m - secretKey * signature1) (modulo - 1)
     else Some (fastModularExponentiation (m - secretKey * signature1) 1 (modulo - 1)));
  c ← gcd fuel signature2 (modulo - 1);
  if c =? 1 then
    let res := inverseModulo signature2 (modulo - 1) * (m - secretKey * signature1) in
    Some (fastModularExponentiation res 1 (modulo - 1))
  else
    let modulo2 := (modulo - 1) / c in
    let signature2Inverse := inverseModulo (signature2 / c) modulo2 in
    let kt := fastModularExponentiation (aux / c * signature2Inverse) 1 modulo2 in
    Some (calculateK_loop alpha modulo signature1 kt modulo2 (seqZ 1 c) k).

(** ** The orchestrator [run] *)

(** The object [{ isSuccess, secretKey, k }] returned by [run]. *)
Record RunResult := { isSuccess : bool; secretKey : Z; k : Z }.

(** [run] writes three lines with [console.log] and returns the record.  The
    lines written so far are the first component; the record is there when
    [calculateK] returns.  An integer inside a template literal is printed in
    decimal, with a leading minus sign when negative. *)
Definition run (fuel : nat) (alpha beta p m signature1 signature2 : Z)
    : list string * option RunResult :=
  let isSuccess := verify alpha beta p m signature1 signature2 in
  let line1 :=
    "The signature verification " +:+
    (if isSuccess then "passed" else "failed") +:+ "!" in
  let secretKey := discreteLogarithm alpha beta p in
  let line2 := "Secret Key is " +:+ pretty secretKey +:+ "." in
  match calculateK fuel alpha beta p m signature1 signature2 secretKey with
  | Some k =>
      ([line1; line2; "The value of k is " +:+ pretty k +:+ "."],
       Some {| isSuccess := isSuccess; secretKey := secretKey; k := k |})
  | None => ([line1; line2], None)
  end.

(** ** Vocabulary of the statements *)

(** The key written for the giant step [i]. *)
Definition giantKey (alpha n modulo i : Z) : Z :=
  fastModularExponentiation alpha (i * n) modulo.

(** The table after the writes of the indices [reverse l], in that order;
    [giantSteps] is [giantTable] at the range [1 .. n]. *)
Definition giantTable (alpha n modulo : Z) (l : list Z) : gmap Z Z :=
  foldl (giantWrite alpha n modulo) ∅ (reverse l).


(** * Properties *)

(** ** Modular exponentiation *)

Section FastModularExponentiation.

(** The recursion on bits is the source's loop: one test of [exponent > 0],
    one step on [exponent % 2] and [Math.floor (exponent / 2)]. *)
Lemma fme_while_unfold (exponent result x modulo : Z) :
  fme_while exponent result x modulo =
  if exponent >? 0 then
    fme_while (exponent / 2)
      (if Z.rem exponent 2 =? 1 then Z.rem (result * x) modulo else result)
      (Z.rem (x * x) modulo) modulo
  else result.
Proof.
  destruct exponent as [|e|e]; try reflexivity.
  destruct e as [e|e|]; try reflexivity.
  - assert (Hq : Z.pos e~1 / 2 = Z.pos e)
      by (symmetry; apply Z.div_unique with 1; lia).
    assert (Hr : Z.rem (Z.pos e~1) 2 = 1).
    { rewrite Z.rem_mod_nonneg by lia.
      symmetry; apply Z.mod_unique with (Z.pos e); lia. }
    change (Z.pos e~1 >? 0) with true; cbv iota.
    rewrite Hq, Hr. reflexivity.
  - assert (Hq : Z.pos e~0 / 2 = Z.pos e)
      by (symmetry; apply Z.div_unique with 0; lia).
    assert (Hr : Z.rem (Z.pos e~0) 2 = 0).
    { rewrite Z.rem_mod_nonneg by lia.
      symmetry; apply Z.mod_unique with (Z.pos e); lia. }
    change (Z.pos e~0 >? 0) with true; cbv iota.
    rewrite Hq, Hr. reflexivity.
Qed.

Lemma rem_pow_idemp (x modulo e : Z) :
  0 <= e -> Z.rem (Z.rem x modulo ^ e) modulo = Z.rem (x ^ e) modulo.
Proof.
  intros He. pattern e. apply natlike_ind; [reflexivity| |exact He].
  intros e' He' IH. rewrite !Z.pow_succ_r by exact He'.
  rewrite Zmult_rem, Zrem_rem, IH, <- Zmult_rem. reflexivity.
Qed.

Lemma fme_loop_spec (e : positive) :
  forall result x modulo,
    fme_loop e result x modulo = Z.rem (result * x ^ Z.pos e) modulo.
Proof.
  induction e as [e IH|e IH|]; intros result x modulo; simpl fme_loop.
  - rewrite IH. rewrite Zmult_rem, Zrem_rem, rem_pow_idemp by lia.
    rewrite <- Zmult_rem. f_equal.
    rewrite Pos2Z.inj_xI, Z.pow_add_r, Z.pow_1_r, Z.pow_mul_r, Z.pow_2_r by lia.
    ring.
  - rewrite IH. rewrite Zmult_rem, rem_pow_idemp by lia.
    rewrite <- Zmult_rem. f_equal.
    rewrite Pos2Z.inj_xO, Z.pow_mul_r, Z.pow_2_r by lia.
    reflexivity.
  - rewrite Z.pow_1_r. reflexivity.
Qed.

(** With a positive exponent the result is the truncated remainder of the
    power, whatever the signs of base and modulus. *)
Lemma fme_pos (base exponent modulo : Z) :
  0 < exponent ->
  fastModularExponentiation base exponent modulo = Z.rem (base ^ exponent) modulo.
Proof.
  intros He. unfold fastModularExponentiation, fme_while.
  destruct exponent as [|e|e]; try lia.
  rewrite fme_loop_spec, Z.mul_1_l. apply rem_pow_idemp. lia.
Qed.

(** Without a positive exponent the loop body never runs: the initial
    [result = 1] is returned as it is, never reduced. *)
Lemma fme_nonpos (base exponent modulo : Z) :
  exponent <= 0 -> fastModularExponentiation base exponent modulo = 1.
Proof.
  intros He. unfold fastModularExponentiation, fme_while.
  destruct exponent as [|e|e]; try reflexivity. lia.
Qed.

Lemma fme_rem (base exponent modulo : Z) :
  0 <= exponent -> 2 <= modulo ->
  fastModularExponentiation base exponent modulo = Z.rem (base ^ exponent) modulo.
Proof.
  intros He Hm. destruct (Z.eq_dec exponent 0) as [->|Hne].
  - rewrite fme_nonpos by lia. rewrite Z.pow_0_r, Z.rem_mod_nonneg by lia.
    symmetry. apply Z.mod_1_l. lia.
  - apply fme_pos. lia.
Qed.

Lemma fme_mod (base exponent modulo : Z) :
  0 <= base -> 0 <= exponent -> 1 <= modulo ->
  0 < exponent \/ 2 <= modulo ->
  fastModularExponentiation base exponent modulo = base ^ exponent mod modulo.
Proof.
  intros Hb He Hm Hor.
  assert (Hpow : 0 <= base ^ exponent) by (apply Z.pow_nonneg; exact Hb).
  rewrite <- Z.rem_mod_nonneg by lia.
  destruct (Z.eq_dec exponent 0) as [->|Hne].
  - apply fme_rem; lia.
  - apply fme_pos; lia.
Qed.

Lemma fme_range (base exponent modulo : Z) :
  0 <= base -> 0 <= exponent -> 2 <= modulo ->
  0 <= fastModularExponentiation base exponent modulo < modulo.
Proof.
  intros Hb He Hm. rewrite fme_mod by lia. apply Z.mod_pos_bound. lia.
Qed.

End FastModularExponentiation.

(** C6, at the input where it fails: with exponent 0 the loop body never
    runs and the initial [result = 1] is returned without any reduction, so
    for modulus 1 the function answers 1, which is neither [base^0 mod 1 = 0]
    nor a value of the range [0, modulo). *)
Theorem fme_exponent_zero_modulo_one (base : Z) :
  fastModularExponentiation base 0 1 = 1 /\
  base ^ 0 mod 1 = 0 /\
  ~ (0 <= fastModularExponentiation base 0 1 < 1).
Proof.
  rewrite fme_nonpos by lia. rewrite Z.pow_0_r.
  split; [reflexivity|]. split; [reflexivity|]. lia.
Qed.

(** Everywhere else in the domain of C6 the function is the modular power. *)
Lemma fme_correct_off_corner (base exponent modulo : Z) :
  0 <= base -> 0 <= exponent -> 1 <= modulo ->
  ~ (exponent = 0 /\ modulo = 1) ->
  fastModularExponentiation base exponent modulo = base ^ exponent mod modulo /\
  0 <= fastModularExponentiation base exponent modulo < modulo.
Proof.
  intros Hb He Hm Hcorner.
  assert (H : fastModularExponentiation base exponent modulo
              = base ^ exponent mod modulo) by (apply fme_mod; lia).
  split; [exact H|]. rewrite H. apply Z.mod_pos_bound. lia.
Qed.

(** ** Signature verification *)

Section Verify.





End Verify.

(** ** Inverse modulo *)

Section InverseModulo.

(** The outcome of the linear search: the first index of the list that passes
    the test, or the fallback [1] when none does. *)
Lemma inverseModulo_loop_spec (a modulo : Z) (indices : list Z) :
  (exists pre i post,
      indices = pre ++ i :: post /\
      inverseModulo_loop a modulo indices = i /\
      Z.rem (a * i) modulo = 1 /\
      forall j, j ∈ pre -> Z.rem (a * j) modulo <> 1) \/
  (inverseModulo_loop a modulo indices = 1 /\
   forall j, j ∈ indices -> Z.rem (a * j) modulo <> 1).
Proof.
  induction indices as [|i rest IH]; simpl.
  - right. split; [reflexivity|]. intros j Hj. inversion Hj.
  - destruct (Z.eqb_spec (Z.rem (a * i) modulo) 1) as [Heq|Hne].
    + left. exists [], i, rest. repeat split; try assumption.
      intros j Hj. inversion Hj.
    + destruct IH as [(pre & i' & post & -> & Hres & Hi' & Hpre)|[Hres Hall]].
      * left. exists (i :: pre), i', post. repeat split; try assumption.
        intros j Hj. apply elem_of_cons in Hj as [->|Hj]; auto.
      * right. split; [exact Hres|].
        intros j Hj. apply elem_of_cons in Hj as [->|Hj]; auto.
Qed.


Lemma coprime_gives_inverse (a modulo : Z) :
  2 <= modulo -> Z.gcd a modulo = 1 ->
  exists i, 0 <= i < modulo /\ (a * i) mod modulo = 1.
Proof.
  intros Hm Hg. apply Z.gcd_bezout in Hg.
  destruct Hg as (u & v & Huv). exists (u mod modulo).
  split; [apply Z.mod_pos_bound; lia|].
  rewrite Z.mul_mod_idemp_r by lia.
  replace (a * u) with (1 + (- v) * modulo) by lia.
  rewrite Z.mod_add by lia. apply Z.mod_1_l. lia.
Qed.

Lemma inverseModulo_test (a modulo i : Z) :
  0 <= a -> 2 <= modulo -> 0 <= i ->
  Z.rem (Z.rem a modulo * i) modulo = (a * i) mod modulo.
Proof.
  intros Ha Hm Hi. rewrite (Z.rem_mod_nonneg a) by lia.
  assert (0 <= a mod modulo < modulo) by (apply Z.mod_pos_bound; lia).
  rewrite Z.rem_mod_nonneg by nia.
  apply Z.mul_mod_idemp_l. lia.
Qed.

(** When an inverse exists the search returns the least one. *)
Lemma inverseModulo_coprime (a modulo : Z) :
  0 <= a -> 2 <= modulo -> Z.gcd a modulo = 1 ->
  0 <= inverseModulo a modulo < modulo /\
  (a * inverseModulo a modulo) mod modulo = 1 /\
  forall j, 0 <= j < inverseModulo a modulo -> (a * j) mod modulo <> 1.
Proof.
  intros Ha Hm Hg. unfold inverseModulo.
  destruct (inverseModulo_loop_spec (Z.rem a modulo) modulo (seqZ 0 modulo))
    as [(pre & i & post & Hsplit & Hres & Hi & Hpre)|[_ Hall]].
  - rewrite Hres.
    assert (Hlen : 0 <= Z.of_nat (length pre)) by lia.
    assert (Hlook : seqZ 0 modulo !! length pre = Some i).
    { rewrite Hsplit. apply list_lookup_middle. reflexivity. }
    apply lookup_seqZ in Hlook as [Hival Hilt].
    assert (Hpre_look : forall j, 0 <= j < i -> j ∈ pre).
    { intros j Hj. apply list_elem_of_lookup. exists (Z.to_nat j).
      assert (Hj' : seqZ 0 modulo !! Z.to_nat j = Some j)
        by (apply lookup_seqZ; lia).
      rewrite Hsplit, lookup_app_l in Hj' by lia. exact Hj'. }
    split; [lia|]. split.
    + rewrite <- inverseModulo_test by lia. exact Hi.
    + intros j Hj. rewrite <- inverseModulo_test by lia.
      apply Hpre, Hpre_look, Hj.
  - exfalso. destruct (coprime_gives_inverse a modulo Hm Hg) as (i & Hi & Hinv).
    apply (Hall i).
    + apply elem_of_seqZ. lia.
    + rewrite inverseModulo_test by lia. exact Hinv.
Qed.





End InverseModulo.

(** ** Negative modulo *)

Section NegativeModulo.

(** The scan stops at the largest index [istar <= -1] whose multiple lies
    strictly below the argument. *)
Lemma negativeModulo_loop_spec (negativeNumber modulo istar : Z) :
  1 <= modulo ->
  modulo * istar < negativeNumber <= modulo * (istar + 1) ->
  forall (fuel : nat) (i : Z),
    istar <= i <= -1 -> (Z.to_nat (i - istar) < fuel)%nat ->
    negativeModulo_loop fuel negativeNumber modulo i = Some istar.
Proof.
  intros Hm Hstar fuel. induction fuel as [|fuel IH]; intros i Hi Hfuel; [lia|].
  simpl. destruct (Z.ltb_spec i modulo) as [_|Hge]; [|lia].
  destruct (Z.ltb_spec (modulo * i) negativeNumber) as [Hlt|Hge].
  - f_equal. nia.
  - apply IH; [nia|]. assert (istar < i) by nia. lia.
Qed.

(** A result does not depend on the fuel that was enough to reach it. *)
Lemma negativeModulo_loop_fuel_mono (fuel fuel' : nat) :
  forall negativeNumber modulo i r,
    negativeModulo_loop fuel negativeNumber modulo i = Some r ->
    (fuel <= fuel')%nat ->
    negativeModulo_loop fuel' negativeNumber modulo i = Some r.
Proof.
  revert fuel'. induction fuel as [|fuel IH];
    intros fuel' negativeNumber modulo i r Hrun Hle; [discriminate Hrun|].
  destruct fuel' as [|fuel']; [lia|]. simpl in *.
  destruct (i <? modulo); [|exact Hrun].
  destruct (modulo * i <? negativeNumber); [exact Hrun|].
  apply IH; [exact Hrun|lia].
Qed.

Lemma negativeModulo_fuel_mono (fuel fuel' : nat) (negativeNumber modulo r : Z) :
  negativeModulo fuel negativeNumber modulo = Some r ->
  (fuel <= fuel')%nat ->
  negativeModulo fuel' negativeNumber modulo = Some r.
Proof.
  unfold negativeModulo. intros Hrun Hle.
  destruct (negativeModulo_loop fuel negativeNumber modulo (-1)) as [i|] eqn:Hloop;
    [|discriminate Hrun].
  rewrite (negativeModulo_loop_fuel_mono fuel fuel' _ _ _ _ Hloop Hle).
  exact Hrun.
Qed.

(** For a negative argument and a modulus of at least 1 the function
    returns, and its value is the representative of the argument in
    [1, modulo], not in [0, modulo). *)
Lemma negativeModulo_returns (negativeNumber modulo : Z) (fuel : nat) :
  negativeNumber < 0 -> 1 <= modulo ->
  (Z.to_nat (- negativeNumber) < fuel)%nat ->
  negativeModulo fuel negativeNumber modulo
  = Some ((negativeNumber - 1) mod modulo + 1).
Proof.
  intros Hneg Hm Hfuel. unfold negativeModulo.
  pose proof (Z.div_mod (negativeNumber - 1) modulo ltac:(lia)) as Hdm.
  pose proof (Z.mod_pos_bound (negativeNumber - 1) modulo ltac:(lia)) as Hbound.
  set (istar := (negativeNumber - 1) / modulo) in *.
  assert (Hlow : negativeNumber - 1 <= istar).
  { destruct (Z.le_gt_cases (negativeNumber - 1) istar) as [H|H]; [exact H|].
    assert (modulo * istar <= modulo * (negativeNumber - 2)) by nia.
    assert (0 <= (modulo - 1) * (- negativeNumber)) by nia.
    lia. }
  assert (Hhigh : istar <= -1) by nia.
  rewrite (negativeModulo_loop_spec negativeNumber modulo istar); try lia.
  simpl. f_equal. lia.
Qed.



Lemma negativeModulo_value_multiple (negativeNumber modulo : Z) :
  1 <= modulo -> negativeNumber mod modulo = 0 ->
  (negativeNumber - 1) mod modulo + 1 = modulo.
Proof.
  intros Hm Hz.
  pose proof (Z.div_mod negativeNumber modulo ltac:(lia)) as Hdm.
  rewrite <- (Z.mod_unique (negativeNumber - 1) modulo
                (negativeNumber / modulo - 1) (modulo - 1));
    lia.
Qed.


(** C7, at an input where it fails: the loop leaves on the strict test
    [modulo * i < negativeNumber], so for an exact negative multiple of the
    modulus it goes one step too far and the function returns [modulo]
    itself instead of 0.  Here [negativeNumber = -22] and [modulo = 22], the
    call made by [calculateK] for [p = 23] and [m - x * s1 = -22]. *)
Theorem negativeModulo_exact_multiple :
  negativeModulo 64 (-22) 22 = Some 22 /\ (-22) mod 22 = 0 /\
  ~ (0 <= 22 < 22).
Proof. split; [vm_compute; reflexivity|]. split; [reflexivity|lia]. Qed.

(** The same for every exact negative multiple. *)
Lemma negativeModulo_multiple (q modulo : Z) (fuel : nat) :
  1 <= q -> 1 <= modulo -> (Z.to_nat (q * modulo) < fuel)%nat ->
  negativeModulo fuel (- (q * modulo)) modulo = Some modulo.
Proof.
  intros Hq Hm Hfuel.
  rewrite negativeModulo_returns; [|nia|lia|].
  - f_equal. apply negativeModulo_value_multiple; [lia|].
    rewrite <- Z.mul_opp_l. apply Z.mod_mul. lia.
  - rewrite Z.opp_involutive. exact Hfuel.
Qed.

End NegativeModulo.

(** ** Greatest common divisor *)

Section Gcd.

(** On two positive operands the subtraction loop terminates, within
    [number1 + number2] turns, on the greatest common divisor. *)
Lemma gcd_positive (fuel : nat) :
  forall number1 number2,
    0 < number1 -> 0 < number2 ->
    (Z.to_nat (number1 + number2) <= fuel)%nat ->
    gcd fuel number1 number2 = Some (Z.gcd number1 number2).
Proof.
  induction fuel as [|fuel IH]; intros a b Ha Hb Hfuel; [lia|].
  simpl. destruct (Z.eqb_spec a b) as [->|Hne]; simpl.
  - rewrite Z.gcd_diag, Z.abs_eq by lia. reflexivity.
  - destruct (Z.gtb_spec a b) as [Hgt|Hle].
    + rewrite IH by lia. f_equal.
      rewrite (Z.gcd_comm (a - b) b), Z.gcd_sub_diag_r. apply Z.gcd_comm.
    + rewrite IH by lia. f_equal. apply Z.gcd_sub_diag_r.
Qed.

Lemma gcd_positive_comm (fuel : nat) (number1 number2 : Z) :
  0 < number1 -> 0 < number2 ->
  (Z.to_nat (number1 + number2) <= fuel)%nat ->
  gcd fuel number1 number2 = gcd fuel number2 number1.
Proof.
  intros H1 H2 Hfuel. rewrite !gcd_positive by lia.
  f_equal. apply Z.gcd_comm.
Qed.

Lemma gcd_unfold (fuel : nat) (number1 number2 : Z) :
  gcd (S fuel) number1 number2 =
  if negb (number1 =? number2) then
    if number1 >? number2 then gcd fuel (number1 - number2) number2
    else gcd fuel number1 (number2 - number1)
  else Some number1.
Proof. reflexivity. Qed.

Lemma gcd_fuel_mono (fuel fuel' : nat) :
  forall number1 number2 r,
    gcd fuel number1 number2 = Some r ->
    (fuel <= fuel')%nat ->
    gcd fuel' number1 number2 = Some r.
Proof.
  revert fuel'. induction fuel as [|fuel IH];
    intros fuel' number1 number2 r Hrun Hle; [discriminate Hrun|].
  destruct fuel' as [|fuel']; [lia|]. rewrite gcd_unfold in *.
  destruct (negb (number1 =? number2)); [|exact Hrun].
  destruct (number1 >? number2); (apply IH; [exact Hrun|lia]).
Qed.

Lemma gcd_same (fuel : nat) (number : Z) : gcd (S fuel) number number = Some number.
Proof. simpl. rewrite Z.eqb_refl. reflexivity. Qed.

(** C9, where it fails: with exactly one operand equal to zero the loop
    subtracts zero for ever, whatever the fuel, so [gcd (a, 0)] and
    [gcd (0, a)] return nothing where the claim asks for [a]. *)
Theorem gcd_zero_operand_diverges (fuel : nat) (a : Z) :
  0 < a -> gcd fuel a 0 = None /\ gcd fuel 0 a = None.
Proof.
  intros Ha. induction fuel as [|fuel [IH1 IH2]]; [split; reflexivity|].
  rewrite !gcd_unfold.
  destruct (Z.eqb_spec a 0) as [Heq|_]; [lia|].
  destruct (Z.eqb_spec 0 a) as [Heq|_]; [lia|].
  destruct (Z.gtb_spec a 0) as [_|Hle]; [|lia].
  destruct (Z.gtb_spec 0 a) as [Hgt|_]; [lia|].
  cbn [negb]. rewrite Z.sub_0_r. split; [exact IH1|exact IH2].
Qed.

Lemma gcd_zero_operand_diverges_witness :
  gcd 1000 5 0 = None /\ gcd 1000 0 5 = None.
Proof. apply (gcd_zero_operand_diverges 1000 5). lia. Defined.

End Gcd.

(** ** Discrete logarithm *)

Section DiscreteLogarithm.

(** Cutting an index range at one of its elements. *)
Lemma seqZ_split (lo len : Z) (pre post : list Z) (i : Z) :
  seqZ lo len = pre ++ i :: post ->
  lo <= i < lo + len /\ forall j, j ∈ pre <-> lo <= j < i.
Proof.
  intros Hsplit.
  assert (Hi : seqZ lo len !! length pre = Some i)
    by (rewrite Hsplit; apply list_lookup_middle; reflexivity).
  apply lookup_seqZ in Hi as [Hival Hilt].
  split; [lia|]. intros j. split.
  - intros Hj. apply list_elem_of_lookup in Hj as [idx Hidx].
    assert (Hlt : (idx < length pre)%nat) by (eapply lookup_lt_Some; eauto).
    assert (Hj : seqZ lo len !! idx = Some j)
      by (rewrite Hsplit, lookup_app_l by exact Hlt; exact Hidx).
    apply lookup_seqZ in Hj. lia.
  - intros Hj. apply list_elem_of_lookup. exists (Z.to_nat (j - lo)).
    assert (Hj' : seqZ lo len !! Z.to_nat (j - lo) = Some j)
      by (apply lookup_seqZ; lia).
    rewrite Hsplit, lookup_app_l in Hj' by lia. exact Hj'.
Qed.

Variables alpha n modulo : Z.

Local Abbreviation giantKey := (giantKey alpha n modulo).
Local Abbreviation table := (giantTable alpha n modulo).

Lemma table_cons (i : Z) (l : list Z) :
  table (i :: l) = <[giantKey i := i]> (table l).
Proof. unfold giantTable. rewrite reverse_cons, foldl_snoc. reflexivity. Qed.

(** An entry of the table is the first index of [l], that is the one written
    last, among those with its key. *)
Lemma table_lookup_Some (l : list Z) (key i : Z) :
  table l !! key = Some i ->
  exists pre post,
    l = pre ++ i :: post /\ giantKey i = key /\
    forall j, j ∈ pre -> giantKey j <> key.
Proof.
  revert i. induction l as [|i0 l IH]; intros i Hlook.
  - unfold giantTable in Hlook. simpl in Hlook. rewrite lookup_empty in Hlook.
    discriminate.
  - rewrite table_cons in Hlook.
    destruct (decide (giantKey i0 = key)) as [Heq|Hne].
    + rewrite <- Heq, lookup_insert_eq in Hlook. injection Hlook as <-.
      exists [], l. repeat split; [exact Heq|]. intros j Hj. inversion Hj.
    + rewrite lookup_insert_ne in Hlook by exact Hne.
      destruct (IH i Hlook) as (pre & post & -> & Hkey & Hpre).
      exists (i0 :: pre), post. repeat split; [exact Hkey|].
      intros j Hj. apply elem_of_cons in Hj as [->|Hj]; auto.
Qed.

Lemma table_lookup_is_Some (l : list Z) (i : Z) :
  i ∈ l -> is_Some (table l !! giantKey i).
Proof.
  induction l as [|i0 l IH]; intros Hi; [inversion Hi|].
  rewrite table_cons.
  destruct (decide (giantKey i0 = giantKey i)) as [Heq|Hne].
  - rewrite <- Heq, lookup_insert_eq. eauto.
  - rewrite lookup_insert_ne by exact Hne. apply IH.
    apply elem_of_cons in Hi as [->|Hi]; [congruence|exact Hi].
Qed.

(** The table of [discreteLogarithm]: an entry holds the least index of
    [1, n] that produces its key. *)
Lemma giantSteps_lookup (key i : Z) :
  giantSteps alpha n modulo !! key = Some i <->
  1 <= i <= n /\ giantKey i = key /\
  forall j, 1 <= j < i -> giantKey j <> key.
Proof.
  change (giantSteps alpha n modulo) with (table (seqZ 1 n)). split.
  - intros Hlook.
    destruct (table_lookup_Some _ _ _ Hlook) as (pre & post & Hsplit & Hkey & Hpre).
    apply seqZ_split in Hsplit as [Hi Hin].
    split; [lia|]. split; [exact Hkey|].
    intros j Hj. apply Hpre, Hin. lia.
  - intros (Hi & Hkey & Hleast).
    destruct (table_lookup_is_Some (seqZ 1 n) i) as [v Hv];
      [apply elem_of_seqZ; lia|].
    rewrite Hkey in Hv. rewrite Hv. f_equal.
    destruct (table_lookup_Some _ _ _ Hv) as (pre & post & Hsplit & Hkeyv & Hpre).
    apply seqZ_split in Hsplit as [Hvr Hin].
    destruct (Z.lt_trichotomy v i) as [Hlt|[Heq|Hgt]]; [|exact Heq|].
    + exfalso. apply (Hleast v); [lia|exact Hkeyv].
    + exfalso. apply (Hpre i); [apply Hin; lia|exact Hkey].
Qed.

Lemma giantSteps_lookup_least (i : Z) :
  1 <= i <= n ->
  exists v, giantSteps alpha n modulo !! giantKey i = Some v /\ 1 <= v <= i.
Proof.
  intros Hi.
  destruct (table_lookup_is_Some (seqZ 1 n) i) as [v Hv];
    [apply elem_of_seqZ; lia|].
  change (table (seqZ 1 n)) with (giantSteps alpha n modulo) in Hv.
  exists v. split; [exact Hv|].
  apply giantSteps_lookup in Hv as (Hv & Hkey & Hleast).
  split; [lia|].
  destruct (Z.le_gt_cases v i) as [Hle|Hgt]; [exact Hle|].
  exfalso. apply (Hleast i); [lia|reflexivity].
Qed.

End DiscreteLogarithm.

(** C8 fails on a collision: for [alpha = 2], [p = 7] the loop has [n = 3]
    and the three giant steps share the key 1; the entry read by the
    baby-step scan holds 1, the lowest index, and not 3. *)
Lemma giantSteps_collision_counterexample :
  let n := Z.sqrt 7 + 1 in
  (1 <= 1 /\ 1 < 3 /\ 3 <= n) /\
  fastModularExponentiation 2 (1 * n) 7 = fastModularExponentiation 2 (3 * n) 7 /\
  giantSteps 2 n 7 !! fastModularExponentiation 2 (3 * n) 7 = Some 1 /\
  giantSteps 2 n 7 !! fastModularExponentiation 2 (3 * n) 7 <> Some 3.
Proof.
  assert (Hlook : giantSteps 2 3 7 !! 1 = Some 1) by (vm_compute; reflexivity).
  change (Z.sqrt 7 + 1) with 3. cbv zeta.
  change (fastModularExponentiation 2 (1 * 3) 7) with 1.
  change (fastModularExponentiation 2 (3 * 3) 7) with 1.
  rewrite Hlook. repeat split; try lia. discriminate.
Qed.

(** C8, amended.  The first loop runs from [i = n] down to [i = 1], so on a
    collision the write that comes last is that of the lower index: when two
    indices [i1 < i2] of [1, n] produce the same key, the entry read by the
    baby-step scan holds the lowest index of [1, n] producing that key, an
    index no larger than [i1], and never [i2].  ([discreteLogarithm] takes
    [n = Z.sqrt modulo + 1].) *)
Theorem giantSteps_collision_lowest (alpha modulo n i1 i2 : Z) :
  1 <= i1 -> i1 < i2 -> i2 <= n ->
  fastModularExponentiation alpha (i1 * n) modulo
  = fastModularExponentiation alpha (i2 * n) modulo ->
  exists i,
    giantSteps alpha n modulo !! fastModularExponentiation alpha (i2 * n) modulo
    = Some i /\
    1 <= i <= i1 /\
    fastModularExponentiation alpha (i * n) modulo
    = fastModularExponentiation alpha (i2 * n) modulo /\
    forall j, 1 <= j < i ->
      fastModularExponentiation alpha (j * n) modulo
      <> fastModularExponentiation alpha (i2 * n) modulo.
Proof.
  intros H1 H12 H2 Hcollide.
  destruct (giantSteps_lookup_least alpha n modulo i1) as (v & Hv & Hrange);
    [lia|].
  unfold giantKey in Hv. rewrite Hcollide in Hv.
  exists v. split; [exact Hv|]. split; [exact Hrange|].
  apply giantSteps_lookup in Hv as (_ & Hkey & Hleast).
  split; [exact Hkey|exact Hleast].
Qed.

Lemma giantSteps_collision_lowest_witness :
  exists i,
    giantSteps 2 3 7 !! fastModularExponentiation 2 (3 * 3) 7 = Some i /\
    1 <= i <= 1 /\
    fastModularExponentiation 2 (i * 3) 7 = fastModularExponentiation 2 (3 * 3) 7 /\
    forall j, 1 <= j < i ->
      fastModularExponentiation 2 (j * 3) 7 <> fastModularExponentiation 2 (3 * 3) 7.
Proof.
  apply (giantSteps_collision_lowest 2 7 3 1 3); [lia|lia|lia|].
  vm_compute. reflexivity.
Defined.

(** *** The baby-step scan *)

Section BabySteps.

Variables (value : gmap Z Z) (alpha beta modulo n : Z).

Local Abbreviation curr i :=
  (Z.rem (fastModularExponentiation alpha i modulo * beta) modulo).

(** The scan returns the candidate of the first index with an entry that is
    positive and whose candidate is below the modulus, and [-1] when no index
    has one. *)
Lemma babySteps_spec (indices : list Z) :
  (exists j v,
      j ∈ indices /\ value !! curr j = Some v /\ 0 < v /\
      v * n - j < modulo /\
      babySteps value alpha beta modulo n indices = v * n - j) \/
  (babySteps value alpha beta modulo n indices = -1 /\
   forall j v, j ∈ indices -> value !! curr j = Some v -> 0 < v ->
               modulo <= v * n - j).
Proof.
  induction indices as [|i rest IH].
  - right. split; [reflexivity|]. intros j v Hj. inversion Hj.
  - assert (Hskip :
      (forall v, value !! curr i = Some v -> 0 < v -> modulo <= v * n - i) ->
      (exists j v,
          j ∈ i :: rest /\ value !! curr j = Some v /\ 0 < v /\
          v * n - j < modulo /\
          babySteps value alpha beta modulo n rest = v * n - j) \/
      (babySteps value alpha beta modulo n rest = -1 /\
       forall j v, j ∈ i :: rest -> value !! curr j = Some v -> 0 < v ->
                   modulo <= v * n - j)).
    { intros Hi. destruct IH as [(j & v & Hj & Hrest)|[Hres Hall]].
      - left. exists j, v. split; [apply elem_of_cons; auto|exact Hrest].
      - right. split; [exact Hres|].
        intros j v Hj. apply elem_of_cons in Hj as [->|Hj]; eauto. }
    simpl. destruct (value !! curr i) as [v|] eqn:Hlook.
    + destruct (Z.gtb_spec v 0) as [Hpos|Hnonpos].
      * destruct (Z.ltb_spec (v * n - i) modulo) as [Hlt|Hge].
        -- left. exists i, v. repeat split; try assumption.
           apply elem_of_cons; auto.
        -- apply Hskip. intros v' Hv' _. injection Hv' as <-. exact Hge.
      * apply Hskip. intros v' Hv' Hpos. injection Hv' as <-. lia.
    + apply Hskip. intros v' Hv'. discriminate Hv'.
Qed.

End BabySteps.

Lemma discreteLogarithm_unfold (alpha beta modulo : Z) :
  discreteLogarithm alpha beta modulo =
  babySteps (giantSteps alpha (Z.sqrt modulo + 1) modulo) alpha beta modulo
    (Z.sqrt modulo + 1) (seqZ 0 (Z.sqrt modulo + 1)).
Proof. reflexivity. Qed.

(** *** Arithmetic of the meet in the middle *)

Section MeetInTheMiddle.

Variables alpha p : Z.
Hypothesis p_ge_2 : 2 <= p.
Hypothesis alpha_pos : 1 <= alpha.
Hypothesis alpha_coprime : Z.gcd alpha p = 1.




End MeetInTheMiddle.

(** *** Checking the side conditions on concrete numbers *)

Lemma prime_check (p : Z) :
  1 < p ->
  forallb (fun d => negb (p mod d =? 0)) (seqZ 2 (p - 2)) = true ->
  Z.prime p.
Proof.
  intros Hp Hall. split; [exact Hp|]. intros d Hd Hdiv.
  rewrite forallb_forall in Hall.
  assert (Hin : In d (seqZ 2 (p - 2)))
    by (apply list_elem_of_In, elem_of_seqZ; lia).
  apply Hall in Hin. apply Z.mod_divide in Hdiv; [|lia].
  rewrite Hdiv in Hin. discriminate Hin.
Qed.



(** *** Soundness of the answer *)



(** *** Round trip *)


(** It also fails for a base that is not a primitive root, whose powers
    repeat before [p - 1]: modulo 7 the base 2 has order 3, and the exponent
    4 comes back as 1. *)
Lemma discreteLogarithm_roundtrip_small_order :
  Z.prime 7 /\ 1 < 2 < 7 /\ 0 <= 4 < 7 - 1 /\
  discreteLogarithm 2 (fastModularExponentiation 2 4 7) 7 = 1.
Proof.
  split; [apply prime_check; [lia|vm_compute; reflexivity]|].
  split; [lia|]. split; [lia|]. vm_compute. reflexivity.
Qed.



(** ** Nonce recovery *)

Section CalculateK.

Lemma fme_exponent_one (base modulo : Z) :
  fastModularExponentiation base 1 modulo = Z.rem base modulo.
Proof. rewrite fme_pos by lia. rewrite Z.pow_1_r. reflexivity. Qed.

Variables alpha modulo signature1 kt modulo2 : Z.

Local Abbreviation candidate i := (kt + i * modulo2).
Local Abbreviation passes k :=
  (fastModularExponentiation alpha k modulo = signature1).



End CalculateK.

(** The two preliminary steps of [calculateK] return as soon as the fuel
    covers the two unbounded loops. *)
Lemma calculateK_steps (fuel : nat) (alpha beta p m s1 s2 x : Z) :
  2 <= p -> 1 <= s2 ->
  (Z.to_nat (Z.abs (m - x * s1)) < fuel)%nat ->
  (Z.to_nat (s2 + (p - 1)) <= fuel)%nat ->
  let aux := if m - x * s1 <? 0
             then (m - x * s1 - 1) mod (p - 1) + 1
             else (m - x * s1) mod (p - 1) in
  let c := Z.gcd s2 (p - 1) in
  calculateK fuel alpha beta p m s1 s2 x =
  if c =? 1 then
    Some (Z.rem (inverseModulo s2 (p - 1) * (m - x * s1)) (p - 1))
  else
    let modulo2 := (p - 1) / c in
    let kt := Z.rem (aux / c * inverseModulo (s2 / c) modulo2) modulo2 in
    Some (calculateK_loop alpha p s1 kt modulo2 (seqZ 1 c) 0).
Proof.
  intros Hp Hs2 Hfuel1 Hfuel2 aux c. unfold calculateK.
  assert (Haux :
    (if m - x * s1 <? 0
     then negativeModulo fuel (m - x * s1) (p - 1)
     else Some (fastModularExponentiation (m - x * s1) 1 (p - 1))) = Some aux).
  { unfold aux. destruct (Z.ltb_spec (m - x * s1) 0) as [Hneg|Hnonneg].
    - apply negativeModulo_returns; lia.
    - rewrite fme_exponent_one, Z.rem_mod_nonneg by lia. reflexivity. }
  rewrite Haux. cbn [mbind option_bind].
  rewrite gcd_positive by lia. cbn [mbind option_bind]. fold c.
  rewrite !fme_exponent_one. reflexivity.
Qed.

Lemma calculateK_fuel_mono (fuel fuel' : nat) (alpha beta p m s1 s2 x r : Z) :
  calculateK fuel alpha beta p m s1 s2 x = Some r ->
  (fuel <= fuel')%nat ->
  calculateK fuel' alpha beta p m s1 s2 x = Some r.
Proof.
  unfold calculateK. intros Hrun Hle.
  destruct (m - x * s1 <? 0).
  - destruct (negativeModulo fuel (m - x * s1) (p - 1)) as [aux|] eqn:Haux;
      [|discriminate Hrun].
    rewrite (negativeModulo_fuel_mono fuel fuel' _ _ _ Haux Hle).
    cbn [mbind option_bind] in *.
    destruct (gcd fuel s2 (p - 1)) as [c|] eqn:Hc; [|discriminate Hrun].
    rewrite (gcd_fuel_mono fuel fuel' _ _ _ Hc Hle). exact Hrun.
  - cbn [mbind option_bind] in *.
    destruct (gcd fuel s2 (p - 1)) as [c|] eqn:Hc; [|discriminate Hrun].
    rewrite (gcd_fuel_mono fuel fuel' _ _ _ Hc Hle). exact Hrun.
Qed.

(** *** The coprime branch *)

Lemma calculateK_coprime (fuel : nat) (alpha beta p m s1 s2 x : Z) :
  3 <= p -> 1 <= s2 -> Z.gcd s2 (p - 1) = 1 ->
  (Z.to_nat (Z.abs (m - x * s1)) < fuel)%nat ->
  (Z.to_nat (s2 + (p - 1)) <= fuel)%nat ->
  calculateK fuel alpha beta p m s1 s2 x
  = Some (Z.rem (inverseModulo s2 (p - 1) * (m - x * s1)) (p - 1)).
Proof.
  intros Hp Hs2 Hg Hf1 Hf2.
  rewrite calculateK_steps by lia. cbv zeta. rewrite Hg. reflexivity.
Qed.

(** With [m - x * s1 >= 0] the branch computes what C3 states. *)
Lemma calculateK_coprime_nonneg (fuel : nat) (alpha beta p m s1 s2 x : Z) :
  3 <= p -> 1 <= s2 -> Z.gcd s2 (p - 1) = 1 ->
  0 <= m - x * s1 ->
  (Z.to_nat (Z.abs (m - x * s1)) < fuel)%nat ->
  (Z.to_nat (s2 + (p - 1)) <= fuel)%nat ->
  exists k,
    calculateK fuel alpha beta p m s1 s2 x = Some k /\
    k = (inverseModulo s2 (p - 1) * ((m - x * s1) mod (p - 1))) mod (p - 1) /\
    0 <= k <= p - 2.
Proof.
  intros Hp Hs2 Hg Hnonneg Hf1 Hf2.
  rewrite calculateK_coprime by lia.
  destruct (inverseModulo_coprime s2 (p - 1)) as (Hinv & _); [lia|lia|exact Hg|].
  eexists. split; [reflexivity|].
  rewrite Z.rem_mod_nonneg by nia.
  split; [rewrite Z.mul_mod_idemp_r by lia; reflexivity|].
  pose proof (Z.mod_pos_bound (inverseModulo s2 (p - 1) * (m - x * s1)) (p - 1)
                ltac:(lia)).
  lia.
Qed.

(** With [m - x * s1 < 0] the branch multiplies the inverse by the negative
    difference itself, not by [aux], and [%] keeps the sign: the result is
    never positive. *)
Lemma calculateK_coprime_negative (fuel : nat) (alpha beta p m s1 s2 x : Z) :
  3 <= p -> 1 <= s2 -> Z.gcd s2 (p - 1) = 1 ->
  m - x * s1 < 0 ->
  (Z.to_nat (Z.abs (m - x * s1)) < fuel)%nat ->
  (Z.to_nat (s2 + (p - 1)) <= fuel)%nat ->
  exists k,
    calculateK fuel alpha beta p m s1 s2 x = Some k /\ - (p - 1) < k <= 0.
Proof.
  intros Hp Hs2 Hg Hneg Hf1 Hf2.
  rewrite calculateK_coprime by lia.
  destruct (inverseModulo_coprime s2 (p - 1)) as (Hinv & _); [lia|lia|exact Hg|].
  eexists. split; [reflexivity|].
  pose proof (Zrem_lt_neg (inverseModulo s2 (p - 1) * (m - x * s1)) (p - 1)
                ltac:(nia) ltac:(lia)).
  lia.
Qed.

(** C3, at an input where it fails, the nonce round trip of the
    specification: [p = 23], [alpha = 5], [x = 6], [s1 = 10], [s2 = 3],
    [m = 3], signed with the nonce 3.  Here [m - x * s1 = -57]; [aux] is
    computed as 9, and [(inverseModulo (3, 22) * 9) mod 22 = 3] is the nonce,
    but the branch [c === 1] does not use [aux] and returns [-19]. *)
Theorem calculateK_coprime_ignores_aux :
  calculateK 64 5 8 23 3 10 3 6 = Some (-19) /\
  negativeModulo 64 (3 - 6 * 10) (23 - 1) = Some 9 /\
  gcd 64 3 (23 - 1) = Some 1 /\
  (inverseModulo 3 (23 - 1) * 9) mod (23 - 1) = 3.
Proof. repeat split; vm_compute; reflexivity. Qed.

(** *** The branch of a common factor *)




(** * Further properties of the code *)

(** ** Powers modulo a prime *)

Section PrimePowers.

Variables alpha p : Z.
Hypothesis p_prime : Z.prime p.
Hypothesis alpha_range : 1 <= alpha < p.




End PrimePowers.

(** ** Modular exponentiation, continued *)





(** ** Signature verification, continued *)




(** ** Discrete logarithm, continued *)

(** X4.  The giant-step table read at any key: an entry is an index of
    [1, n] that produces the key and is the least one to do so; there is no
    entry exactly when no index of [1, n] produces the key.  (So every stored
    index is positive, and the test [value[curr] > 0] of the scan is a test
    of presence.) *)
Theorem giantSteps_entries (alpha n modulo key : Z) :
  match giantSteps alpha n modulo !! key with
  | Some i =>
      1 <= i <= n /\
      fastModularExponentiation alpha (i * n) modulo = key /\
      forall j, 1 <= j < i ->
        fastModularExponentiation alpha (j * n) modulo <> key
  | None =>
      forall j, 1 <= j <= n ->
        fastModularExponentiation alpha (j * n) modulo <> key
  end.
Proof.
  destruct (giantSteps alpha n modulo !! key) as [i|] eqn:Hlook.
  - apply giantSteps_lookup in Hlook. exact Hlook.
  - intros j Hj Hkey.
    destruct (giantSteps_lookup_least alpha n modulo j Hj) as (v & Hv & _).
    unfold giantKey in Hv. rewrite Hkey, Hlook in Hv. discriminate Hv.
Qed.

(** X5.  Whatever the inputs, for a modulus of at least 1 the answer is the
    sentinel [-1] or a number of [1, modulo): never 0, never the modulus or
    more, and always [-1] for modulus 1. *)
Theorem discreteLogarithm_range (alpha beta modulo : Z) :
  1 <= modulo ->
  discreteLogarithm alpha beta modulo = -1 \/
  1 <= discreteLogarithm alpha beta modulo < modulo.
Proof.
  intros _. rewrite discreteLogarithm_unfold. set (n := Z.sqrt modulo + 1).
  destruct (babySteps_spec (giantSteps alpha n modulo) alpha beta modulo n (seqZ 0 n))
    as [(j & v & Hj & Hlook & Hv & Hlt & Hres)|[Hres _]]; rewrite Hres.
  - right. apply elem_of_seqZ in Hj.
    apply giantSteps_lookup in Hlook as (Hvn & _ & _). nia.
  - left. reflexivity.
Qed.

Lemma discreteLogarithm_range_witness :
  discreteLogarithm 2 7 11 = -1 \/ 1 <= discreteLogarithm 2 7 11 < 11.
Proof. apply (discreteLogarithm_range 2 7 11). lia. Defined.




Section Search.

Variables alpha beta p : Z.
Hypothesis p_ge_2 : 2 <= p.
Hypothesis alpha_pos : 1 <= alpha.
Hypothesis alpha_coprime : Z.gcd alpha p = 1.
Hypothesis beta_range : 0 <= beta < p.



End Search.







(** ** Negative modulo, continued *)





Lemma negativeModulo_loop_zero_modulus (fuel : nat) :
  forall negativeNumber i,
    negativeNumber <= 0 -> i <= -1 ->
    negativeModulo_loop fuel negativeNumber 0 i = None.
Proof.
  induction fuel as [|fuel IH]; intros negativeNumber i Hneg Hi; [reflexivity|].
  cbn [negativeModulo_loop]. destruct (Z.ltb_spec i 0) as [_|Hge]; [|lia].
  destruct (Z.ltb_spec (0 * i) negativeNumber) as [Hlt|_]; [lia|].
  apply IH; lia.
Qed.

(** X11.  With modulus 0 and an argument that is not positive the test
    [modulo * i < negativeNumber] never holds and the scan never ends: the
    function returns nothing, whatever the fuel.  ([calculateK] makes this
    call for [modulo = 1] when [m - secretKey * signature1] is negative.) *)
Theorem negativeModulo_zero_modulus_diverges (fuel : nat) (negativeNumber : Z) :
  negativeNumber <= 0 -> negativeModulo fuel negativeNumber 0 = None.
Proof.
  intros Hneg. unfold negativeModulo.
  rewrite negativeModulo_loop_zero_modulus by lia. reflexivity.
Qed.

Lemma negativeModulo_zero_modulus_diverges_witness :
  negativeModulo 1000 (-3) 0 = None.
Proof. apply (negativeModulo_zero_modulus_diverges 1000 (-3)). lia. Defined.

(** ** Inverse modulo, continued *)





(** X13.  The fallback [1] is what comes back for a modulus of at most 1
    (the search is empty, or only tries [i = 0]) and for every negative [a]
    (the products [a * i] are never positive, so their remainder is never
    1), even where [a] has an inverse. *)
Theorem inverseModulo_fallback (a modulo : Z) :
  modulo <= 1 \/ a < 0 -> inverseModulo a modulo = 1.
Proof.
  intros Hcase. unfold inverseModulo.
  destruct (inverseModulo_loop_spec (Z.rem a modulo) modulo (seqZ 0 modulo))
    as [(pre & i & post & Hsplit & Hres & Hi & _)|[Hres _]]; [|exact Hres].
  exfalso. apply seqZ_split in Hsplit as [Hrange _].
  destruct Hcase as [Hm|Ha].
  - assert (Hi0 : i = 0) by lia.
    rewrite Hi0, Z.mul_0_r, Zrem_0_l in Hi. lia.
  - assert (Hrem : Z.rem a modulo <= 0)
      by (pose proof (Zrem_lt_neg a modulo ltac:(lia) ltac:(lia)); lia).
    pose proof (Zrem_lt_neg (Z.rem a modulo * i) modulo ltac:(nia) ltac:(lia)).
    lia.
Qed.

Lemma inverseModulo_fallback_witness : inverseModulo (-3) 22 = 1.
Proof. apply (inverseModulo_fallback (-3) 22). lia. Defined.

(** X14.  For a modulus of at least 2 the result lies in [1, modulo),
    whatever [a] is: the function never returns 0 and never a value outside
    the residues. *)
Theorem inverseModulo_range (a modulo : Z) :
  2 <= modulo -> 1 <= inverseModulo a modulo < modulo.
Proof.
  intros Hm. unfold inverseModulo.
  destruct (inverseModulo_loop_spec (Z.rem a modulo) modulo (seqZ 0 modulo))
    as [(pre & i & post & Hsplit & Hres & Hi & _)|[Hres _]]; rewrite Hres; [|lia].
  apply seqZ_split in Hsplit as [Hrange _].
  destruct (Z.eq_dec i 0) as [Hi0|Hne]; [|lia].
  rewrite Hi0, Z.mul_0_r, Zrem_0_l in Hi. lia.
Qed.

Lemma inverseModulo_range_witness : 1 <= inverseModulo 4 22 < 22.
Proof. apply (inverseModulo_range 4 22). lia. Defined.

(** ** Greatest common divisor, continued *)

(** X15.  On two positive operands the subtraction loop returns, within
    [number1 + number2] turns, the greatest common divisor, in either order
    of the operands. *)
Theorem gcd_positive_operands (fuel : nat) (number1 number2 : Z) :
  0 < number1 -> 0 < number2 ->
  (Z.to_nat (number1 + number2) <= fuel)%nat ->
  gcd fuel number1 number2 = Some (Z.gcd number1 number2) /\
  gcd fuel number2 number1 = Some (Z.gcd number1 number2).
Proof.
  intros H1 H2 Hfuel. split.
  - apply gcd_positive; assumption.
  - rewrite (Z.gcd_comm number1 number2). apply gcd_positive; lia.
Qed.

Lemma gcd_positive_operands_witness :
  gcd 64 12 18 = Some (Z.gcd 12 18) /\ gcd 64 18 12 = Some (Z.gcd 12 18).
Proof.
  apply (gcd_positive_operands 64 12 18); [lia|lia|]. vm_compute. lia.
Defined.

Lemma gcd_diverges (fuel : nat) :
  forall number1 number2,
    number1 <> number2 -> number1 <= 0 \/ number2 <= 0 ->
    gcd fuel number1 number2 = None.
Proof.
  induction fuel as [|fuel IH]; intros a b Hne Hsign; [reflexivity|].
  rewrite gcd_unfold.
  destruct (Z.eqb_spec a b) as [Heq|_]; [contradiction|]. cbn [negb].
  destruct (Z.gtb_spec a b) as [Hgt|Hle]; apply IH; lia.
Qed.

(** X16.  The loop returns exactly when the operands are equal or both
    positive: with different operands of which one is zero or negative it
    subtracts for ever. *)
Theorem gcd_returns_iff (number1 number2 : Z) :
  (exists fuel r, gcd fuel number1 number2 = Some r) <->
  number1 = number2 \/ (0 < number1 /\ 0 < number2).
Proof.
  split.
  - intros (fuel & r & Hrun).
    destruct (Z.eq_dec number1 number2) as [Heq|Hne]; [left; exact Heq|].
    right. destruct (Z.le_gt_cases number1 0) as [H1|H1].
    + rewrite gcd_diverges in Hrun by auto. discriminate Hrun.
    + destruct (Z.le_gt_cases number2 0) as [H2|H2]; [|lia].
      rewrite gcd_diverges in Hrun by auto. discriminate Hrun.
  - intros [->|[H1 H2]].
    + exists 1%nat, number2. apply gcd_same.
    + exists (Z.to_nat (number1 + number2)), (Z.gcd number1 number2).
      apply gcd_positive; lia.
Qed.

(** ** Nonce recovery, continued *)











Lemma gcd_diverges_calculateK (fuel : nat) (alpha beta p m s1 s2 : Z) :
  2 <= p -> s2 <= 0 ->
  forall x, calculateK fuel alpha beta p m s1 s2 x = None.
Proof.
  intros Hp Hs2 x. unfold calculateK.
  rewrite (gcd_diverges fuel s2 (p - 1)) by lia.
  destruct (if m - x * s1 <? 0 then _ else _); reflexivity.
Qed.

(** X20.  With [signature2 <= 0] and [p >= 2] the call [gcd (signature2,
    modulo - 1)] never ends, so [calculateK] returns nothing, whatever the
    fuel and the other arguments. *)
Theorem calculateK_nonpositive_signature2_diverges
    (fuel : nat) (alpha beta p m s1 s2 x : Z) :
  2 <= p -> s2 <= 0 ->
  calculateK fuel alpha beta p m s1 s2 x = None.
Proof. intros Hp Hs2. apply gcd_diverges_calculateK; assumption. Qed.

Lemma calculateK_nonpositive_signature2_diverges_witness :
  calculateK 1000 5 8 23 3 10 0 6 = None.
Proof.
  apply (calculateK_nonpositive_signature2_diverges 1000 5 8 23 3 10 0 6); lia.
Defined.





(** ** The orchestrator *)



(** X23.  [run] writes the verification line and the key line before it
    calls [calculateK]; with [signature2 <= 0] (and [p >= 2]) that call never
    ends, so these two lines are all that is written and no record is
    returned. *)
Theorem run_nonpositive_signature2 (fuel : nat) (alpha beta p m s1 s2 : Z) :
  2 <= p -> s2 <= 0 ->
  run fuel alpha beta p m s1 s2
  = (["The signature verification " +:+
      (if verify alpha beta p m s1 s2 then "passed" else "failed") +:+ "!";
      "Secret Key is " +:+ pretty (discreteLogarithm alpha beta p) +:+ "."],
     None).
Proof.
  intros Hp Hs2. unfold run.
  rewrite (gcd_diverges_calculateK fuel alpha beta p m s1 s2) by assumption.
  reflexivity.
Qed.

Lemma run_nonpositive_signature2_witness :
  run 1000 5 8 23 3 10 0
  = (["The signature verification " +:+
      (if verify 5 8 23 3 10 0 then "passed" else "failed") +:+ "!";
      "Secret Key is " +:+ pretty (discreteLogarithm 5 8 23) +:+ "."],
     None).
Proof. apply (run_nonpositive_signature2 1000 5 8 23 3 10 0); lia. Defined.
